(** * Nim (aidoodle/games/nim.py): a shallow embedding and its properties

  Python integers are unbounded, so every [int] of the source is a [Z].
  Exceptions are values of the error monad [exc]: a call that raises
  returns [Raise e], and nothing after it is evaluated. The dataclasses
  are frozen and hold integers and tuples, so their values are immutable
  and the functions of the module are functions of their arguments. *)

From Stdlib Require Import QArith.
From stdpp Require Import base decidable numbers option list relations gmap.
From stdpp Require Import strings sorting.

#[local] Open Scope Z_scope.

(** ** Exceptions *)

Inductive exn : Set :=
| ValueError
| IndexError.

Inductive exc (A : Type) : Type :=
| OK (a : A)
| Raise (e : exn).

Arguments OK {A} a.
Arguments Raise {A} e.

#[global] Instance exc_ret : MRet exc := fun _ a => OK a.
#[global] Instance exc_bind : MBind exc := fun _ _ f m =>
  match m with
  | OK a => f a
  | Raise e => Raise e
  end.
#[global] Instance exc_fmap : FMap exc := fun _ _ f m =>
  match m with
  | OK a => OK (f a)
  | Raise e => Raise e
  end.

(** Runs the computations of a list from left to right and stops at the
  first one that raises, as a generator or a loop that constructs
  validated objects does. *)
Fixpoint exc_mapM {A B : Type} (f : A → exc B) (l : list A) : exc (list B) :=
  match l with
  | [] => OK []
  | x :: l' => y ← f x; ys ← exc_mapM f l'; OK (y :: ys)
  end.

(** ** Module constants *)

Definition POSSIBLE_PLAYERS : gset Z := {[ -1; 1; 2 ]}.
Definition POSSIBLE_HEAPS : gset Z := {[ 0; 1; 2 ]}.

(** ** Move *)

Module Move.

Record t : Set := mk { i : Z; j : Z }.

(** [__post_init__]: the heap index is checked first, then the amount. *)
Definition post_init (self : t) : exc unit :=
  if decide (i self ∈ POSSIBLE_HEAPS) then
    if decide (j self < 1) then Raise ValueError else OK ()
  else Raise ValueError.

(** [Move(i, j)]: the dataclass stores the fields and then validates. *)
Definition new (i j : Z) : exc t :=
  let self := mk i j in
  _ ← post_init self; OK self.

(** [__iter__]: yields [i] then [j]. *)
Definition iter (self : t) : list Z := [i self; j self].

(** [__eq__] against another move: both fields agree. *)
Definition eqb (self other : t) : bool :=
  bool_decide (i other = i self) && bool_decide (j other = j self).

(** [__lt__]: lexicographic order of the pairs. *)
Definition ltb (self other : t) : bool :=
  bool_decide (i self < i other)
  || (bool_decide (i self = i other) && bool_decide (j self < j other)).

End Move.

Abbreviation Move := Move.t.

(** ** Agents and players *)

(** The agent classes of the module. What an agent answers is random or
  read from the terminal, so it is supplied from outside wherever a move
  is asked for (see [get_move]). *)
Inductive Agent : Set :=
| RandomAgent
| CliInputAgent.

Module Player.

Record t : Set := mk { i : Z; agent : Agent }.

Definition post_init (self : t) : exc unit :=
  if decide (i self ∈ POSSIBLE_PLAYERS) then OK () else Raise ValueError.

(** [Player(i, agent)]; the default agent is [RandomAgent()]. *)
Definition new (i : Z) (agent : Agent) : exc t :=
  let self := mk i agent in
  _ ← post_init self; OK self.

(** [__eq__] against another player compares the identifier only. *)
Definition eqb (self other : t) : bool := bool_decide (i self = i other).

(** [__int__] *)
Definition int (self : t) : Z := i self.

End Player.

Abbreviation Player := Player.t.
Abbreviation MaybePlayer := (option Player.t).

(** ** Tuples *)

(** Python's [t[k]] on a tuple of length [len]: a negative index counts
  from the end, and an index outside [-len .. len-1] raises IndexError. *)
Definition norm_index (len k : Z) : exc Z :=
  if decide (k < 0) then
    if decide (k + len < 0) then Raise IndexError else OK (k + len)
  else
    if decide (len ≤ k) then Raise IndexError else OK k.

Definition getitem2 {A : Type} (t : A * A) (k : Z) : exc A :=
  n ← norm_index 2 k;
  OK (if decide (n = 0) then t.1 else t.2).

Definition getitem3 {A : Type} (t : A * A * A) (k : Z) : exc A :=
  n ← norm_index 3 k;
  OK (if decide (n = 0) then t.1.1 else if decide (n = 1) then t.1.2 else t.2).

(** [enumerate(xs)] *)
Fixpoint enumerate_from {A : Type} (k : Z) (xs : list A) : list (Z * A) :=
  match xs with
  | [] => []
  | x :: xs' => (k, x) :: enumerate_from (k + 1) xs'
  end.

Definition enumerate {A : Type} (xs : list A) : list (Z * A) :=
  enumerate_from 0 xs.

(** [range(lo, hi)]: empty when [hi <= lo]. *)
Definition range (lo hi : Z) : list Z := seqZ lo (hi - lo).

(** [sum(xs)], the builtin: a left fold of [+] from 0. *)
Definition py_sum (xs : list Z) : Z := foldl Z.add 0 xs.

(** ** Board *)

Module Board.

Record t : Set := mk { state : Z * Z * Z }.

(** The default board of the dataclass. *)
Definition default : t := mk (3, 4, 5).

(** [__iter__]: the heaps in order. *)
Definition iter (self : t) : list Z :=
  let '(a, b, c) := state self in [a; b; c].

(** [__len__] *)
Definition len (self : t) : Z := Z.of_nat (length (iter self)).

(** [__eq__] against another board. *)
Definition eqb (self other : t) : bool :=
  bool_decide (state self = state other).

End Board.

Abbreviation Board := Board.t.
Abbreviation MaybeBoard := (option Board.t).

(** [make_random_board()]: [r0], [r1], [r2] are the three values that
  [random.randint(3, 6)] returns, in the order of the calls. *)
Definition make_random_board (r0 r1 r2 : Z) : Board := Board.mk (r0, r1, r2).

(** ** Game *)

Module Game.

Record t : Set := mk {
  players : Player * Player;
  board : Board;
  player_idx : Z
}.

(** The [player] property: [self.players[self.player_idx]]. *)
Definition player (self : t) : exc Player :=
  getitem2 (players self) (player_idx self).

End Game.

Abbreviation Game := Game.t.

(** ** The rules *)

Definition determine_winner (game : Game) : exc MaybePlayer :=
  let board := Game.board game in
  if decide (py_sum (Board.iter board) ≠ 0) then OK None
  else
    (* last player to have taken a stone loses *)
    p ← Game.player game; OK (Some p).

(** The [winner] property of [Game]. *)
Definition winner (self : Game) : exc MaybePlayer := determine_winner self.

(** Truth value of an [Optional[Player]]: [Player] defines neither
  [__bool__] nor [__len__], so every player object is true and only
  [None] is false. *)
Definition truthy (w : MaybePlayer) : bool :=
  match w with
  | Some _ => true
  | None => false
  end.

Definition get_next_player_idx (game : Game) : exc Z :=
  p ← Game.player game;
  p1 ← Player.new 1 RandomAgent;
  OK (Z.b2z (Player.eqb p p1)).

Definition _get_all_moves (board : Board) : exc (list Move) :=
  mss ← exc_mapM
    (fun '(i, n) =>
       if decide (n = 0) then OK []
       else exc_mapM (fun j => Move.new i j) (range 1 (n + 1)))
    (enumerate (Board.iter board));
  OK (concat mss).

Definition get_legal_moves (game : Game) : exc (list Move) :=
  w ← winner game;
  if truthy w then OK [] else _get_all_moves (Game.board game).

(** [apply_move(board, move, player)]. The move is unpacked through its
  [__iter__]; [player] is accepted and not used, as in the source. *)
Definition apply_move (board : Board) (move : Move) (player : Player)
  : exc Board :=
  let state := Board.state board in
  match Move.iter move with
  | [i_heap; n_stones] =>
      h ← getitem3 state i_heap;
      if decide (h < n_stones) then Raise ValueError
      else
        let state_new :=
          (if decide (i_heap = 0) then state.1.1 - n_stones else state.1.1,
           if decide (i_heap = 1) then state.1.2 - n_stones else state.1.2,
           if decide (i_heap = 2) then state.2 - n_stones else state.2) in
        OK (Board.mk state_new)
  | _ => Raise ValueError
  end.

(** [get_move(game)] asks the agent of the player to move. The answer of
  an agent ([random.choice], or what is typed at the prompt) is given by
  [next_move]. *)
Definition get_move (next_move : Agent → Game → exc Move) (game : Game)
  : exc Move :=
  p ← Game.player game;
  next_move (Player.agent p) game.

(** [make_move(game, move)]. The arguments of the call to [apply_move]
  are evaluated first, [game.player] among them. *)
Definition make_move (next_move : Agent → Game → exc Move)
    (game : Game) (move : option Move) : exc Game :=
  move ← match move with
         | None => get_move next_move game
         | Some m => OK m
         end;
  player ← Game.player game;
  board ← apply_move (Game.board game) move player;
  player_idx ← get_next_player_idx game;
  OK (Game.mk (Game.players game) board player_idx).

(** [init_game(board, player_idx)]; [drawn] is the board that
  [make_random_board()] returns when no board is given. *)
Definition init_game (drawn : Board) (board : MaybeBoard) (player_idx : Z)
  : exc Game :=
  let board_ := match board with Some b => b | None => drawn end in
  p1 ← Player.new 1 RandomAgent;
  p2 ← Player.new 2 RandomAgent;
  OK (Game.mk (p1, p2) board_ player_idx).

(** ** Comparisons with other values *)

(** The values the [__eq__] methods are tried on here: None, an integer,
  a tuple of integers, and the objects of the module. *)
Inductive pyval : Set :=
| PyNone
| PyInt (z : Z)
| PyTuple (items : list Z)
| PyMove (m : Move)
| PyBoard (b : Board)
| PyPlayer (p : Player).




(** [Player.__eq__(self, other)]: against a player and against an
  integer the identifier is compared; anything else gives False. *)
Definition Player_eq (self : Player) (other : pyval) : bool :=
  match other with
  | PyPlayer p => bool_decide (Player.i self = Player.i p)
  | PyInt z => bool_decide (Player.i self = z)
  | _ => false
  end.

(** [winner_to_score(winner)]. The float literals 1.0, 0.0 and 0.5 are
  exact binary fractions; they are the rationals 1, 0 and 1/2 here. *)
Definition winner_to_score (winner : Player) : exc Q :=
  if Player_eq winner (PyInt 1) then OK 1%Q
  else if Player_eq winner (PyInt 2) then OK 0%Q
  else if Player_eq winner (PyInt (-1)) then OK (Qmake 1 2)
  else Raise ValueError.

(** ** The random agent *)

(** [random.choice(seq)]: IndexError on an empty sequence, and otherwise
  the item at a position below [len(seq)]; [r] is the random source, and
  the position drawn is [r mod len(seq)]. *)
Definition random_choice {A : Type} (r : nat) (seq : list A) : exc A :=
  match seq with
  | [] => Raise IndexError
  | x :: _ => OK (nth (r mod length seq) seq x)
  end.

(** [RandomAgent.next_move(game)] *)
Definition RandomAgent_next_move (r : nat) (game : Game) : exc Move :=
  legal_moves ← get_legal_moves game;
  random_choice r legal_moves.

(** The answers of the two agent classes: the random agent draws with
  [r]; what the command-line agent returns after its dialogue is given by
  [cli]. *)
Definition agents_next_move (cli : Game → exc Move) (r : nat)
  : Agent → Game → exc Move :=
  fun agent game =>
    match agent with
    | RandomAgent => RandomAgent_next_move r game
    | CliInputAgent => cli game
    end.

(** ** The driver (run.py), with this module as [engine] *)

(** Exceptions of the driver: those of the game module, and the
  TypeError of an ordering comparison with None. *)
Inductive run_exn : Set :=
| Py (e : exn)
| TypeError.

(** How a loop of the driver ends. [Unfinished] is not an outcome of the
  program: the fuel given to the model ran out first. *)
Inductive outcome (A : Type) : Type :=
| Returns (a : A)
| Raises (e : run_exn)
| Unfinished.

Arguments Returns {A} a.
Arguments Raises {A} e.
Arguments Unfinished {A}.

(** The [while not game.winner] loop of [_play_game] and the final
  [return game.winner]; what is printed is left out. [answers n] gives
  the answers of the agents at the [n]-th move of the match. *)
Fixpoint play_loop (answers : nat → Agent → Game → exc Move)
    (fuel n : nat) (game : Game) : outcome MaybePlayer :=
  match winner game with
  | Raise e => Raises (Py e)
  | OK w =>
      if truthy w then Returns w
      else
        match fuel with
        | O => Unfinished
        | S fuel' =>
            match make_move (answers n) game None with
            | Raise e => Raises (Py e)
            | OK game' => play_loop answers fuel' (S n) game'
            end
        end
  end.

(** [_play_game(player1, player2, engine)]: a game on the default board
  with [player_idx] 0, played until it has a winner. *)
Definition _play_game (answers : nat → Agent → Game → exc Move)
    (fuel : nat) (player1 player2 : Player) : outcome MaybePlayer :=
  play_loop answers fuel 0
    (Game.mk (player1, player2) Board.default 0).

(** The counters of [play_game]. *)
Record tally : Set := mk_tally {
  n_games : Z;
  n_wins_1 : Z;
  n_wins_2 : Z;
  n_ties : Z
}.

(** [winner == k] for the value [_play_game] returned: None equals no
  integer. *)
Definition winner_is (winner : MaybePlayer) (k : Z) : bool :=
  match winner with
  | Some p => Player_eq p (PyInt k)
  | None => false
  end.

(** The [if]/[elif] chain of [play_game] that counts one result; an
  unknown winner raises ValueError. *)
Definition count_winner (winner : MaybePlayer) (t : tally) : exc tally :=
  let n := n_games t + 1 in
  if winner_is winner 1 then
    OK (mk_tally n (n_wins_1 t + 1) (n_wins_2 t) (n_ties t))
  else if winner_is winner 2 then
    OK (mk_tally n (n_wins_1 t) (n_wins_2 t + 1) (n_ties t))
  else if winner_is winner (-1) then
    OK (mk_tally n (n_wins_1 t) (n_wins_2 t) (n_ties t + 1))
  else Raise ValueError.

(** The [while] loop of [play_game]. [answers k] are the agents' answers
  in the [k]-th match and [inputs k] is what is typed after it;
  [move_fuel] bounds the moves of a match and [fuel] the matches;
  [input] is taken to return a line each time it is called.
  With [n_runs = None] the comparison [n_games >= n_runs] raises
  TypeError. The function returns nothing; the counters at the end of
  the loop, which are the last line printed, stand for its result. *)
Fixpoint play_game_loop
    (answers : nat → nat → Agent → Game → exc Move) (inputs : nat → string)
    (move_fuel : nat) (player1 player2 : Player) (n_runs : option Z)
    (fuel k : nat) (cont : string) (t : tally) : outcome tally :=
  if bool_decide (cont ∈ ["f"; "q"; "quit"]) then Returns t
  else
    match fuel with
    | O => Unfinished
    | S fuel' =>
        match _play_game (answers k) move_fuel player1 player2 with
        | Raises e => Raises e
        | Unfinished => Unfinished
        | Returns winner =>
            let cont :=
              match n_runs with
              | None => inputs k
              | Some _ => cont
              end in
            match count_winner winner t with
            | Raise e => Raises (Py e)
            | OK t' =>
                match n_runs with
                | None => Raises TypeError
                | Some n =>
                    if bool_decide (n ≤ n_games t') then Returns t'
                    else play_game_loop answers inputs move_fuel
                           player1 player2 n_runs fuel' (S k) cont t'
                end
            end
        end
    end.

(** [play_game(player1, player2, engine=engine, n_runs=n_runs)] *)
Definition play_game
    (answers : nat → nat → Agent → Game → exc Move) (inputs : nat → string)
    (move_fuel fuel : nat) (player1 player2 : Player) (n_runs : option Z)
  : outcome tally :=
  play_game_loop answers inputs move_fuel player1 player2 n_runs
    fuel 0 "t" (mk_tally 0 0 0 0).

(** * Notions used in the statements *)

(** The heap at position [k] of a board, for [k] among 0, 1, 2: what
  [board.state[k]] reads there (see [getitem3_heap]). *)
Definition heap (b : Board) (k : Z) : Z :=
  if decide (k = 0) then (Board.state b).1.1
  else if decide (k = 1) then (Board.state b).1.2
  else (Board.state b).2.

(** The heap sum of the board of a game, as [determine_winner] computes
  it. *)
Definition heap_sum (g : Game) : Z := py_sum (Board.iter (Game.board g)).

(** Heap sizes that count stones: none is negative. The [Board]
  dataclass does not check this. *)
Definition nonneg (b : Board) : Prop :=
  0 ≤ heap b 0 ∧ 0 ≤ heap b 1 ∧ 0 ≤ heap b 2.

(** [Player(1)] and [Player(2)], with the default agent. *)
Definition player1 : Player := Player.mk 1 RandomAgent.
Definition player2 : Player := Player.mk 2 RandomAgent.

(** One behaviour the agents can show: the first legal move.
  [random.choice] may return it, and raises IndexError on an empty
  list. *)
Definition first_choice (a : Agent) (g : Game) : exc Move :=
  ms ← get_legal_moves g;
  match ms with
  | [] => Raise IndexError
  | m :: _ => OK m
  end.

(** One legal move: [m] is taken from [get_legal_moves g] and made with
  [make_move]. *)
Definition legal_step (nm : Agent → Game → exc Move) (g g' : Game)
  : Prop :=
  ∃ ms m, get_legal_moves g = OK ms ∧ m ∈ ms
    ∧ make_move nm g (Some m) = OK g'.

(** ** Concrete games *)

(** The last stone of the board (0, 0, 1), with player 1 to move. *)
Definition one_stone_left : Game :=
  Game.mk (player1, player2) (Board.mk (0, 0, 1)) 0.

(** A finished board held by a game whose [player_idx] does not index
  the pair of players. *)
Definition finished_bad_index : Game :=
  Game.mk (player1, player2) (Board.mk (0, 0, 0)) 2.

(** Two players, neither of them [Player(1)], and the second one to
  move. *)
Definition second_to_move : Game :=
  Game.mk (player2, player2) (Board.mk (1, 0, 0)) 1.

(** A board with a negative entry, player 1 to move. *)
Definition negative_heap : Game :=
  Game.mk (player1, player2) (Board.mk (1, -2, 0)) 0.

(** * Properties *)

(** ** The error monad *)

Lemma exc_mapM_total {A B : Type} (f : A → exc B) (g : A → B) (l : list A) :
  (∀ x, x ∈ l → f x = OK (g x)) → exc_mapM f l = OK (g <$> l).
Proof.
  induction l as [|x l IH]; intros Hl; simpl.
  - reflexivity.
  - rewrite (Hl x) by apply list_elem_of_here. simpl.
    rewrite IH; [reflexivity |].
    intros y Hy. apply Hl. by apply list_elem_of_further.
Qed.

(** ** Validation of moves and players *)

Lemma elem_of_POSSIBLE_HEAPS (i : Z) :
  i ∈ POSSIBLE_HEAPS ↔ i = 0 ∨ i = 1 ∨ i = 2.
Proof.
  unfold POSSIBLE_HEAPS. rewrite !elem_of_union, !elem_of_singleton. tauto.
Qed.

Lemma elem_of_POSSIBLE_PLAYERS (i : Z) :
  i ∈ POSSIBLE_PLAYERS ↔ i = -1 ∨ i = 1 ∨ i = 2.
Proof.
  unfold POSSIBLE_PLAYERS. rewrite !elem_of_union, !elem_of_singleton. tauto.
Qed.

Lemma Move_new_cases (i j : Z) :
  ((i = 0 ∨ i = 1 ∨ i = 2) ∧ 1 ≤ j ∧ Move.new i j = OK (Move.mk i j))
  ∨ ((¬ (i = 0 ∨ i = 1 ∨ i = 2) ∨ j < 1) ∧ Move.new i j = Raise ValueError).
Proof.
  unfold Move.new, Move.post_init. simpl.
  destruct (decide (i ∈ POSSIBLE_HEAPS)) as [Hi|Hi];
    rewrite elem_of_POSSIBLE_HEAPS in Hi.
  - destruct (decide (j < 1)) as [Hj|Hj]; simpl.
    + right. split; [right; exact Hj | reflexivity].
    + left. split; [exact Hi | split; [lia | reflexivity]].
  - right. split; [left; exact Hi | reflexivity].
Qed.

Lemma Move_new_OK (i j : Z) (m : Move) :
  Move.new i j = OK m ↔ m = Move.mk i j ∧ (i = 0 ∨ i = 1 ∨ i = 2) ∧ 1 ≤ j.
Proof.
  destruct (Move_new_cases i j) as [(Hi & Hj & ->)|(Hbad & ->)]; split.
  - intros [= <-]. auto.
  - intros (-> & _). reflexivity.
  - intros H. discriminate H.
  - intros (_ & Hi & Hj). destruct Hbad as [Hbad|Hbad]; [tauto | lia].
Qed.

Lemma Player_new_cases (i : Z) (a : Agent) :
  ((i = -1 ∨ i = 1 ∨ i = 2) ∧ Player.new i a = OK (Player.mk i a))
  ∨ (¬ (i = -1 ∨ i = 1 ∨ i = 2) ∧ Player.new i a = Raise ValueError).
Proof.
  unfold Player.new, Player.post_init. simpl.
  destruct (decide (i ∈ POSSIBLE_PLAYERS)) as [Hi|Hi];
    rewrite elem_of_POSSIBLE_PLAYERS in Hi; simpl; auto.
Qed.

Lemma Player_new_1 : Player.new 1 RandomAgent = OK player1.
Proof.
  destruct (Player_new_cases 1 RandomAgent) as [(_ & H)|(Hbad & _)].
  - exact H.
  - exfalso. apply Hbad. right. left. reflexivity.
Qed.

(** C9. Constructing [Move(i, j)] raises ValueError exactly when [i] is
  not one of 0, 1, 2 or [j < 1], and otherwise returns the move with
  these fields; constructing [Player(i, agent)] raises ValueError exactly
  when [i] is not one of -1, 1, 2, and otherwise returns the player. *)
Theorem construction_validates (i j : Z) (a : Agent) :
  (Move.new i j = Raise ValueError ↔ ¬ (i = 0 ∨ i = 1 ∨ i = 2) ∨ j < 1)
  ∧ (Move.new i j = OK (Move.mk i j) ↔ (i = 0 ∨ i = 1 ∨ i = 2) ∧ 1 ≤ j)
  ∧ (Player.new i a = Raise ValueError ↔ ¬ (i = -1 ∨ i = 1 ∨ i = 2))
  ∧ (Player.new i a = OK (Player.mk i a) ↔ (i = -1 ∨ i = 1 ∨ i = 2)).
Proof.
  destruct (Move_new_cases i j) as [(Hi & Hj & HM)|(Hbad & HM)];
  destruct (Player_new_cases i a) as [(Hp & HP)|(Hp & HP)];
    rewrite HM, HP; repeat split; try done; try tauto; try lia.
Qed.

(** ** Heaps and applying a move *)

Lemma getitem3_heap (b : Board) (k : Z) :
  0 ≤ k < 3 → getitem3 (Board.state b) k = OK (heap b k).
Proof.
  intros Hk. unfold getitem3, norm_index, heap.
  destruct (decide (k < 0)); [lia |].
  destruct (decide (3 ≤ k)); [lia |]. reflexivity.
Qed.

Lemma py_sum_board (b : Board) :
  py_sum (Board.iter b) = heap b 0 + heap b 1 + heap b 2.
Proof. destruct b as [[[a0 a1] a2]]. reflexivity. Qed.

Lemma state_zero_iff (b : Board) :
  Board.state b = (0, 0, 0) ↔ heap b 0 = 0 ∧ heap b 1 = 0 ∧ heap b 2 = 0.
Proof.
  destruct b as [[[a0 a1] a2]]. unfold heap. simpl. split.
  - intros [= -> -> ->]. auto.
  - intros (-> & -> & ->). reflexivity.
Qed.

Lemma nonneg_sum (b : Board) :
  nonneg b →
  0 ≤ py_sum (Board.iter b)
  ∧ (py_sum (Board.iter b) = 0 ↔ Board.state b = (0, 0, 0)).
Proof.
  intros (H0 & H1 & H2). rewrite py_sum_board, state_zero_iff. lia.
Qed.

(** The two outcomes of [apply_move] on a move with a heap index in
  range: ValueError when the heap is too small, and otherwise the board
  with [j] stones fewer on heap [i]. *)
Lemma apply_move_cases (b : Board) (m : Move) (p : Player) :
  0 ≤ Move.i m < 3 →
  (heap b (Move.i m) < Move.j m ∧ apply_move b m p = Raise ValueError)
  ∨ (Move.j m ≤ heap b (Move.i m)
     ∧ ∃ b', apply_move b m p = OK b'
        ∧ ∀ k, 0 ≤ k < 3 →
               heap b' k
               = if decide (k = Move.i m) then heap b k - Move.j m
                 else heap b k).
Proof.
  intros Hi. unfold apply_move. simpl.
  rewrite getitem3_heap by exact Hi. simpl.
  destruct (decide (heap b (Move.i m) < Move.j m)) as [Hlt|Hge].
  - left. split; [exact Hlt | reflexivity].
  - right. split; [lia |]. eexists. split; [reflexivity |].
    intros k Hk. unfold heap. simpl.
    repeat case_decide; try reflexivity; lia.
Qed.

(** C4. For every board [b], every heap index [i] among 0, 1, 2 and every
  count [j] with [1 <= j <= b[i]], the move [Move(i, j)] is constructed
  and [apply_move] returns a board [b'] whose heap [i] is [b[i] - j],
  strictly less than before, and whose other heaps are those of [b].
  Boards are immutable values: [b] is the same board before and after
  the call. *)
Theorem apply_move_decreases_heap (b : Board) (i j : Z) (p : Player) :
  i = 0 ∨ i = 1 ∨ i = 2 →
  1 ≤ j →
  j ≤ heap b i →
  ∃ m b',
    Move.new i j = OK m
    ∧ apply_move b m p = OK b'
    ∧ heap b' i = heap b i - j
    ∧ heap b' i < heap b i
    ∧ ∀ k, 0 ≤ k < 3 → k ≠ i → heap b' k = heap b k.
Proof.
  intros Hi Hj Hle.
  exists (Move.mk i j).
  assert (0 ≤ Move.i (Move.mk i j) < 3) as Hrange by (simpl; lia).
  destruct (apply_move_cases b (Move.mk i j) p Hrange)
    as [(Hlt & _)|(_ & b' & Hb' & Hheap)]; simpl in *; [lia |].
  exists b'. split; [by apply Move_new_OK |]. split; [exact Hb' |].
  assert (heap b' i = heap b i - j) as Hi'.
  { rewrite Hheap by lia. by rewrite decide_True. }
  split; [exact Hi' |]. split; [lia |].
  intros k Hk Hne. rewrite Hheap by exact Hk. by rewrite decide_False.
Qed.

Lemma apply_move_decreases_heap_witness :
  ∃ m b',
    Move.new 1 3 = OK m
    ∧ apply_move Board.default m player1 = OK b'
    ∧ heap b' 1 = heap Board.default 1 - 3
    ∧ heap b' 1 < heap Board.default 1
    ∧ ∀ k, 0 ≤ k < 3 → k ≠ 1 → heap b' k = heap Board.default k.
Proof.
  apply (apply_move_decreases_heap Board.default 1 3 player1).
  - right. left. reflexivity.
  - lia.
  - vm_compute. discriminate.
Defined.

(** C5. For every board and every constructed move [Move(i, j)],
  [apply_move] raises ValueError exactly when heap [i] holds fewer than
  [j] stones, and it returns a board exactly when heap [i] holds at least
  [j]: a failing call produces no board. The board passed in is an
  immutable value and is the same after the call. *)
Theorem apply_move_fails_iff (b : Board) (i j : Z) (m : Move) (p : Player) :
  Move.new i j = OK m →
  (apply_move b m p = Raise ValueError ↔ heap b i < j)
  ∧ ((∃ b', apply_move b m p = OK b') ↔ j ≤ heap b i).
Proof.
  intros (-> & Hi & Hj)%Move_new_OK.
  assert (0 ≤ Move.i (Move.mk i j) < 3) as Hrange by (simpl; lia).
  destruct (apply_move_cases b (Move.mk i j) p Hrange)
    as [(Hlt & ->)|(Hle & b' & -> & _)]; simpl in *.
  - split; [tauto |]. split; [intros (b' & Hb'); discriminate Hb' | lia].
  - split; [split; [intros H; discriminate H | lia] |].
    split; [intros _; exact Hle | intros _; by exists b'].
Qed.

Lemma apply_move_fails_iff_witness :
  (apply_move Board.default (Move.mk 0 4) player1 = Raise ValueError
   ↔ heap Board.default 0 < 4)
  ∧ ((∃ b', apply_move Board.default (Move.mk 0 4) player1 = OK b')
     ↔ 4 ≤ heap Board.default 0).
Proof.
  apply (apply_move_fails_iff Board.default 0 4 (Move.mk 0 4) player1).
  vm_compute. reflexivity.
Defined.

(** ** The current player and the winner *)

Lemma getitem2_cases {A : Type} (t : A * A) (k : Z) :
  ((k = 0 ∨ k = -2) ∧ getitem2 t k = OK t.1)
  ∨ ((k = 1 ∨ k = -1) ∧ getitem2 t k = OK t.2)
  ∨ ((k < -2 ∨ 2 ≤ k) ∧ getitem2 t k = Raise IndexError).
Proof.
  unfold getitem2, norm_index.
  destruct (decide (k < 0)).
  - destruct (decide (k + 2 < 0)); simpl.
    + right. right. split; [lia | reflexivity].
    + destruct (decide (k + 2 = 0)).
      * left. split; [lia | reflexivity].
      * right. left. split; [lia | reflexivity].
  - destruct (decide (2 ≤ k)); simpl.
    + right. right. split; [lia | reflexivity].
    + destruct (decide (k = 0)).
      * left. split; [lia | reflexivity].
      * right. left. split; [lia | reflexivity].
Qed.

(** Case analysis on [players[player_idx]] of the game [g]: the first
  player, the second one, or IndexError. *)
Ltac player_lookup g :=
  let Hk := fresh "Hk" in
  let Hget := fresh "Hget" in
  destruct (getitem2_cases (Game.players g) (Game.player_idx g))
    as [(Hk & Hget)|[(Hk & Hget)|(Hk & Hget)]];
  unfold Game.player in *;
  rewrite ?Hget in *.

(** The player lookup succeeds exactly on the indices Python accepts
  for a pair. *)
Lemma Game_player_defined (g : Game) :
  (∃ p, Game.player g = OK p) ↔ -2 ≤ Game.player_idx g < 2.
Proof.
  player_lookup g; split; intros H.
  - lia.
  - eauto.
  - lia.
  - eauto.
  - destruct H as (p & Hp). discriminate Hp.
  - lia.
Qed.

Lemma Game_player_out_of_range (g : Game) :
  Game.player_idx g < -2 ∨ 2 ≤ Game.player_idx g →
  Game.player g = Raise IndexError.
Proof. intros Hidx. player_lookup g; [lia | lia | reflexivity]. Qed.

Lemma determine_winner_running (g : Game) :
  heap_sum g ≠ 0 → determine_winner g = OK None.
Proof.
  unfold heap_sum. intros Hs. unfold determine_winner.
  destruct (decide (py_sum (Board.iter (Game.board g)) ≠ 0)) as [_|Hz].
  - reflexivity.
  - contradiction.
Qed.

Lemma determine_winner_over (g : Game) :
  heap_sum g = 0 → determine_winner g = Some <$> Game.player g.
Proof.
  unfold heap_sum. intros Hs. unfold determine_winner.
  destruct (decide (py_sum (Board.iter (Game.board g)) ≠ 0)) as [Hne|_].
  - contradiction.
  - destruct (Game.player g); reflexivity.
Qed.

(** On a board of sum zero the winner is looked up at [player_idx]; an
  index outside the pair makes the lookup, and the call, raise. *)
Lemma determine_winner_out_of_range (g : Game) :
  heap_sum g = 0 →
  Game.player_idx g < -2 ∨ 2 ≤ Game.player_idx g →
  determine_winner g = Raise IndexError.
Proof.
  intros Hs Hidx. rewrite determine_winner_over by exact Hs.
  by rewrite Game_player_out_of_range.
Qed.

(** C3, as stated, fails in its last part: with three empty heaps and
  [player_idx = 2], [determine_winner] raises IndexError and returns no
  player. *)
Lemma determine_winner_counterexample :
  Board.state (Game.board finished_bad_index) = (0, 0, 0)
  ∧ heap_sum finished_bad_index = 0
  ∧ determine_winner finished_bad_index = Raise IndexError
  ∧ ¬ ∃ p, determine_winner finished_bad_index = OK (Some p).
Proof.
  repeat split; try (vm_compute; reflexivity).
  intros (p & Hp). vm_compute in Hp. discriminate Hp.
Qed.

(** C3, amended. For every game, [determine_winner] (the [winner]
  property) returns None exactly when the heap sum is not zero. When the
  heap sum is zero and [player_idx] indexes the pair of players (from -2
  to 1, as Python accepts), it returns the player at that index, which
  is not None. *)
Theorem determine_winner_none_iff (g : Game) :
  (determine_winner g = OK None ↔ heap_sum g ≠ 0)
  ∧ winner g = determine_winner g
  ∧ (heap_sum g = 0 →
     -2 ≤ Game.player_idx g < 2 →
     ∃ p, Game.player g = OK p ∧ determine_winner g = OK (Some p)).
Proof.
  split; [| split; [reflexivity |]].
  - split.
    + intros Hw Hs. rewrite determine_winner_over in Hw by exact Hs.
      destruct (Game.player g); discriminate Hw.
    + apply determine_winner_running.
  - intros Hs (p & Hp)%Game_player_defined. exists p.
    split; [exact Hp |]. rewrite determine_winner_over by exact Hs.
    by rewrite Hp.
Qed.

Lemma determine_winner_none_iff_witness :
  ∃ p, Game.player (Game.mk (player1, player2) (Board.mk (0, 0, 0)) 1) = OK p
    ∧ determine_winner (Game.mk (player1, player2) (Board.mk (0, 0, 0)) 1)
      = OK (Some p).
Proof.
  apply (determine_winner_none_iff
           (Game.mk (player1, player2) (Board.mk (0, 0, 0)) 1)).
  - reflexivity.
  - simpl. lia.
Defined.

(** ** Enumerating the moves *)

Lemma Move_new_range (i n : Z) :
  0 ≤ i < 3 →
  exc_mapM (fun j => Move.new i j) (range 1 (n + 1))
  = OK (Move.mk i <$> seqZ 1 n).
Proof.
  intros Hi. unfold range. replace (n + 1 - 1) with n by lia.
  apply exc_mapM_total. intros j [Hj _]%elem_of_seqZ.
  apply Move_new_OK. split; [reflexivity |]. split; lia.
Qed.

(** Closed form of the generator: for each heap in turn, the counts from
  1 up to its size. A heap of size 0 (or a negative entry) gives none. *)
Lemma get_all_moves_eq (b : Board) :
  _get_all_moves b
  = OK ((Move.mk 0 <$> seqZ 1 (heap b 0))
        ++ (Move.mk 1 <$> seqZ 1 (heap b 1))
        ++ (Move.mk 2 <$> seqZ 1 (heap b 2))).
Proof.
  destruct b as [[[a0 a1] a2]]. unfold _get_all_moves, heap. simpl.
  assert (∀ i n, 0 ≤ i < 3 →
    (if decide (n = 0) then OK []
     else exc_mapM (fun j => Move.new i j) (range 1 (n + 1)))
    = OK (Move.mk i <$> seqZ 1 n)) as Hrow.
  { intros i n Hi. destruct (decide (n = 0)) as [->|_].
    - reflexivity.
    - by apply Move_new_range. }
  rewrite !Hrow by lia. simpl. by rewrite app_nil_r.
Qed.

Lemma elem_of_row (m : Move) (i n : Z) :
  m ∈ Move.mk i <$> seqZ 1 n ↔ Move.i m = i ∧ 1 ≤ Move.j m ≤ n.
Proof.
  rewrite list_elem_of_fmap. split.
  - intros (j & -> & Hj%elem_of_seqZ). simpl. lia.
  - intros (Hi & Hj). exists (Move.j m). split.
    + destruct m as [mi mj]. simpl in *. by subst.
    + apply elem_of_seqZ. lia.
Qed.

Lemma get_all_moves_spec (b : Board) :
  ∃ ms, _get_all_moves b = OK ms
    ∧ ∀ m, m ∈ ms ↔
        (Move.i m = 0 ∨ Move.i m = 1 ∨ Move.i m = 2)
        ∧ 1 ≤ Move.j m ≤ heap b (Move.i m).
Proof.
  eexists. split; [apply get_all_moves_eq |].
  intros m. rewrite !elem_of_app, !elem_of_row. split.
  - intros [(Hi & Hj)|[(Hi & Hj)|(Hi & Hj)]]; rewrite Hi; split; auto.
  - intros ([Hi|[Hi|Hi]] & Hj); rewrite Hi in *; auto.
Qed.

Lemma get_all_moves_NoDup (b : Board) (ms : list Move) :
  _get_all_moves b = OK ms → NoDup ms.
Proof.
  rewrite get_all_moves_eq. intros [= <-].
  assert (∀ i n, NoDup (Move.mk i <$> seqZ 1 n)) as Hrow.
  { intros i n. apply NoDup_fmap_2; [| apply NoDup_seqZ].
    intros x y [= ->]. reflexivity. }
  rewrite !NoDup_app. repeat split; try apply Hrow.
  - intros m [Hi _]%elem_of_row. rewrite elem_of_app, !elem_of_row. lia.
  - intros m [Hi _]%elem_of_row. rewrite elem_of_row. lia.
Qed.

(** ** Legal moves *)

Lemma get_legal_moves_running (g : Game) :
  heap_sum g ≠ 0 → get_legal_moves g = _get_all_moves (Game.board g).
Proof.
  intros Hs. unfold get_legal_moves, winner.
  by rewrite determine_winner_running.
Qed.

Lemma get_legal_moves_over (g : Game) :
  heap_sum g = 0 → get_legal_moves g = (fun _ => []) <$> Game.player g.
Proof.
  intros Hs. unfold get_legal_moves, winner.
  rewrite determine_winner_over by exact Hs.
  destruct (Game.player g); reflexivity.
Qed.

(** A move from the list of legal moves has a heap index in range and a
  count between 1 and the size of its heap. *)
Lemma legal_move_bounds (g : Game) (ms : list Move) (m : Move) :
  get_legal_moves g = OK ms → m ∈ ms →
  0 ≤ Move.i m < 3 ∧ 1 ≤ Move.j m ≤ heap (Game.board g) (Move.i m).
Proof.
  intros Hms Hm.
  destruct (decide (heap_sum g = 0)) as [Hs|Hs].
  - rewrite get_legal_moves_over in Hms by exact Hs.
    destruct (Game.player g); simpl in Hms; [| discriminate].
    injection Hms as <-. by apply elem_of_nil in Hm.
  - rewrite get_legal_moves_running in Hms by exact Hs.
    destruct (get_all_moves_spec (Game.board g)) as (ms' & Hms' & Hin).
    rewrite Hms in Hms'. injection Hms' as <-.
    apply Hin in Hm as (Hi & Hj). split; [lia | exact Hj].
Qed.

(** C6. For every game whose heap sum is not zero, [get_legal_moves]
  returns a list whose members are exactly the moves [Move(i, j)] with
  [i] among 0, 1, 2, heap [i] not zero and [1 <= j <= heap i]; no move
  is listed twice. *)
Theorem get_legal_moves_exact (g : Game) :
  py_sum (Board.iter (Game.board g)) ≠ 0 →
  ∃ ms, get_legal_moves g = OK ms
    ∧ NoDup ms
    ∧ ∀ m, m ∈ ms ↔
        (Move.i m = 0 ∨ Move.i m = 1 ∨ Move.i m = 2)
        ∧ heap (Game.board g) (Move.i m) ≠ 0
        ∧ 1 ≤ Move.j m ≤ heap (Game.board g) (Move.i m).
Proof.
  intros Hs. rewrite get_legal_moves_running by exact Hs.
  destruct (get_all_moves_spec (Game.board g)) as (ms & Hms & Hin).
  exists ms. split; [exact Hms |].
  split; [by eapply get_all_moves_NoDup |].
  intros m. rewrite Hin. split.
  - intros (Hi & Hj). split; [exact Hi |]. split; [lia | exact Hj].
  - intros (Hi & _ & Hj). split; [exact Hi | exact Hj].
Qed.

Lemma get_legal_moves_exact_witness :
  ∃ ms, get_legal_moves (Game.mk (player1, player2) Board.default 0) = OK ms
    ∧ NoDup ms
    ∧ ∀ m, m ∈ ms ↔
        (Move.i m = 0 ∨ Move.i m = 1 ∨ Move.i m = 2)
        ∧ heap Board.default (Move.i m) ≠ 0
        ∧ 1 ≤ Move.j m ≤ heap Board.default (Move.i m).
Proof.
  apply (get_legal_moves_exact (Game.mk (player1, player2) Board.default 0)).
  vm_compute. discriminate.
Defined.

Lemma get_legal_moves_out_of_range (g : Game) :
  heap_sum g = 0 →
  Game.player_idx g < -2 ∨ 2 ≤ Game.player_idx g →
  get_legal_moves g = Raise IndexError.
Proof.
  intros Hs Hidx. rewrite get_legal_moves_over by exact Hs.
  by rewrite Game_player_out_of_range.
Qed.

(** C7, as stated, fails: on a board of three empty heaps the call looks
  up [players[player_idx]], and with [player_idx = 2] that raises
  IndexError instead of returning the empty list. *)
Lemma get_legal_moves_terminal_counterexample :
  Board.state (Game.board finished_bad_index) = (0, 0, 0)
  ∧ get_legal_moves finished_bad_index = Raise IndexError
  ∧ get_legal_moves finished_bad_index ≠ OK [].
Proof.
  split; [reflexivity |]. split.
  - vm_compute. reflexivity.
  - vm_compute. discriminate.
Qed.

(** C7, amended. For every game whose three heaps are zero and whose
  [player_idx] indexes the pair of players (from -2 to 1, as Python
  accepts), [get_legal_moves] returns the empty list. *)
Theorem get_legal_moves_terminal (g : Game) :
  Board.state (Game.board g) = (0, 0, 0) →
  -2 ≤ Game.player_idx g < 2 →
  get_legal_moves g = OK [].
Proof.
  intros Hb (p & Hp)%Game_player_defined.
  rewrite get_legal_moves_over.
  - by rewrite Hp.
  - unfold heap_sum. destruct g as [ps [st] k]. simpl in *. by subst.
Qed.

Lemma get_legal_moves_terminal_witness :
  get_legal_moves (Game.mk (player1, player2) (Board.mk (0, 0, 0)) 1) = OK [].
Proof.
  apply (get_legal_moves_terminal
           (Game.mk (player1, player2) (Board.mk (0, 0, 0)) 1)).
  - reflexivity.
  - simpl. lia.
Defined.

(** ** Making a move *)

Lemma get_next_player_idx_eq (g : Game) (p : Player) :
  Game.player g = OK p →
  get_next_player_idx g = OK (if Player.eqb p player1 then 1 else 0).
Proof.
  intros Hp. unfold get_next_player_idx. rewrite Hp, Player_new_1. simpl.
  destruct (Player.eqb p player1); reflexivity.
Qed.

Section Play.

(** What the agents answer when [make_move] is called without a move.
  Nothing below depends on it when the move is supplied. *)
Variable next_move : Agent → Game → exc Move.

(** With the move supplied, [make_move] succeeds exactly when the player
  lookup and [apply_move] do, and the result is then determined. *)
Lemma make_move_OK (g g' : Game) (m : Move) :
  make_move next_move g (Some m) = OK g' ↔
  ∃ p b', Game.player g = OK p
    ∧ apply_move (Game.board g) m p = OK b'
    ∧ g' = Game.mk (Game.players g) b'
             (if Player.eqb p player1 then 1 else 0).
Proof.
  unfold make_move. simpl. split.
  - destruct (Game.player g) as [p|e] eqn:Hp; simpl; [| discriminate].
    destruct (apply_move (Game.board g) m p) as [b'|e] eqn:Hb; simpl;
      [| discriminate].
    rewrite (get_next_player_idx_eq g p Hp). simpl.
    intros [= <-]. exists p, b'. auto.
  - intros (p & b' & Hp & Hb & ->). rewrite Hp. simpl. rewrite Hb. simpl.
    rewrite (get_next_player_idx_eq g p Hp). reflexivity.
Qed.

(** [game.player] is evaluated before anything else happens to the
  move: an index outside the pair makes [make_move] raise IndexError. *)
Lemma make_move_out_of_range (g : Game) (m : Move) :
  Game.player_idx g < -2 ∨ 2 ≤ Game.player_idx g →
  make_move next_move g (Some m) = Raise IndexError.
Proof.
  intros Hidx. unfold make_move. simpl.
  by rewrite Game_player_out_of_range.
Qed.

(** A legal move, made by a game whose current player is defined, gives
  a new game: same players, [j] stones fewer on heap [i], and the index
  computed from the mover. *)
Lemma make_move_legal (g : Game) (ms : list Move) (m : Move) (p : Player) :
  get_legal_moves g = OK ms → m ∈ ms → Game.player g = OK p →
  ∃ b', make_move next_move g (Some m)
        = OK (Game.mk (Game.players g) b'
                (if Player.eqb p player1 then 1 else 0))
    ∧ ∀ k, 0 ≤ k < 3 →
        heap b' k = if decide (k = Move.i m)
                    then heap (Game.board g) k - Move.j m
                    else heap (Game.board g) k.
Proof.
  intros Hms Hm Hp.
  destruct (legal_move_bounds g ms m Hms Hm) as (Hi & Hj).
  destruct (apply_move_cases (Game.board g) m p Hi)
    as [(Hlt & _)|(_ & b' & Hb' & Hheap)]; [lia |].
  exists b'. split; [| exact Hheap].
  apply make_move_OK. exists p, b'. auto.
Qed.

(** C2. The game with board (1, 1, 1), players [Player(1)] and
  [Player(2)] and index 0 has player 1 to move; [Move(0, 1)],
  [Move(1, 1)], [Move(2, 1)], made in this order with [make_move], give
  the boards (0, 1, 1), (0, 0, 1), (0, 0, 0), and the winner of the last
  game is [Player(2)]. *)
Theorem example_three_single_stones (drawn : Board) :
  (g0 ← init_game drawn (Some (Board.mk (1, 1, 1))) 0;
   mover ← Game.player g0;
   m1 ← Move.new 0 1; g1 ← make_move next_move g0 (Some m1);
   m2 ← Move.new 1 1; g2 ← make_move next_move g1 (Some m2);
   m3 ← Move.new 2 1; g3 ← make_move next_move g2 (Some m3);
   w ← winner g3;
   OK (Game.players g0, mover,
       [Game.board g1; Game.board g2; Game.board g3], w))
  = OK ((player1, player2), player1,
        [Board.mk (0, 1, 1); Board.mk (0, 0, 1); Board.mk (0, 0, 0)],
        Some player2).
Proof. vm_compute. reflexivity. Qed.

(** ** Who wins *)

(** C1, as stated, fails: player 1 takes the last stone, the board is
  then empty, and the winner of the resulting game is player 2, who is
  not the player that made this move. *)
Lemma winner_is_last_mover_counterexample :
  ∃ g', Game.player one_stone_left = OK player1
    ∧ make_move first_choice one_stone_left (Some (Move.mk 2 1)) = OK g'
    ∧ Board.state (Game.board g') = (0, 0, 0)
    ∧ winner g' = OK (Some player2)
    ∧ Player.eqb player2 player1 = false.
Proof. eexists. repeat split; vm_compute; reflexivity. Qed.

(** C1, amended. When [make_move] returns a game whose three heaps are
  zero, the winner of that game is its current player: the second of the
  two players if the player who supplied the move equals [Player(1)],
  and the first otherwise. With players [Player(1)] and [Player(2)] the
  winner is therefore the opponent of the player who supplied the last
  move, and never that player. *)
Theorem winner_after_last_move (g g' : Game) (m : Move) :
  make_move next_move g (Some m) = OK g' →
  Board.state (Game.board g') = (0, 0, 0) →
  ∃ mover w,
    Game.player g = OK mover
    ∧ Game.player g' = OK w
    ∧ winner g' = OK (Some w)
    ∧ w = (if Player.eqb mover player1
           then (Game.players g).2 else (Game.players g).1)
    ∧ (Player.i (Game.players g).1 = 1 →
       Player.i (Game.players g).2 = 2 →
       Player.eqb w mover = false).
Proof.
  intros (mover & b' & Hmover & _ & ->)%make_move_OK Hzero. simpl in Hzero.
  pose (k := if Player.eqb mover player1 then 1 else 0).
  pose (w := if Player.eqb mover player1
             then (Game.players g).2 else (Game.players g).1).
  assert (Game.player (Game.mk (Game.players g) b' k) = OK w) as Hw.
  { unfold Game.player, k, w. simpl.
    destruct (Player.eqb mover player1); reflexivity. }
  exists mover, w. split; [exact Hmover |]. split; [exact Hw |].
  split; [| split; [reflexivity |]].
  - unfold winner. rewrite determine_winner_over.
    + fold k. by rewrite Hw.
    + unfold heap_sum. destruct b' as [st]. simpl in *. by subst.
  - intros H1 H2. clear Hw. unfold w, Player.eqb. simpl.
    player_lookup g; [| | discriminate];
      injection Hmover as <-; rewrite ?H1, ?H2; simpl; rewrite ?H1, ?H2;
      reflexivity.
Qed.

(** ** Whose turn is next *)

(** C10, as stated, fails in its last part: neither player of this game
  is [Player(1)], the move is legal, and the index changes from 1 to
  0. *)
Lemma index_never_changes_counterexample :
  Player.eqb (Game.players second_to_move).1 player1 = false
  ∧ Player.eqb (Game.players second_to_move).2 player1 = false
  ∧ get_legal_moves second_to_move = OK [Move.mk 0 1]
  ∧ Game.player_idx second_to_move = 1
  ∧ ∃ g', make_move first_choice second_to_move (Some (Move.mk 0 1)) = OK g'
      ∧ Game.player_idx g' = 0.
Proof.
  repeat split; try (vm_compute; reflexivity).
  eexists. split; vm_compute; reflexivity.
Qed.

(** C10, amended. For every game whose current player [p] is defined,
  [get_next_player_idx] returns 1 if [p] equals [Player(1)] and 0
  otherwise, and [make_move] with a legal move returns a game with the
  same players and that index. With players [Player(1)] and [Player(2)]
  and an index of 0 or 1 the new index is the other of the two. When
  neither player equals [Player(1)] the new index is 0, whatever the
  index was. *)
Theorem next_player_idx_after_move
    (g : Game) (p : Player) (ms : list Move) (m : Move) :
  Game.player g = OK p →
  get_next_player_idx g = OK (if Player.eqb p player1 then 1 else 0)
  ∧ (get_legal_moves g = OK ms → m ∈ ms →
     ∃ g', make_move next_move g (Some m) = OK g'
       ∧ Game.players g' = Game.players g
       ∧ Game.player_idx g' = (if Player.eqb p player1 then 1 else 0)
       ∧ (Player.i (Game.players g).1 = 1 →
          Player.i (Game.players g).2 = 2 →
          0 ≤ Game.player_idx g < 2 →
          Game.player_idx g' = 1 - Game.player_idx g)
       ∧ (Player.i (Game.players g).1 ≠ 1 →
          Player.i (Game.players g).2 ≠ 1 →
          Game.player_idx g' = 0)).
Proof.
  intros Hp. split; [by apply get_next_player_idx_eq |].
  intros Hms Hm.
  destruct (make_move_legal g ms m p Hms Hm Hp) as (b' & Hmk & _).
  eexists. split; [exact Hmk |]. simpl.
  split; [reflexivity |]. split; [reflexivity |].
  player_lookup g; [| | discriminate]; injection Hp as <-;
    unfold Player.eqb; simpl; split; intros H1 H2; try intros Hrange.
  - rewrite H1. rewrite bool_decide_eq_true_2 by reflexivity. lia.
  - by rewrite bool_decide_eq_false_2.
  - rewrite H2. rewrite bool_decide_eq_false_2 by lia. lia.
  - by rewrite bool_decide_eq_false_2.
Qed.

(** ** Playing to the end *)

(** What one legal move does to the heaps and to the index. *)
Lemma legal_step_inv (g g' : Game) :
  legal_step next_move g g' →
  ∃ i j, 0 ≤ i < 3 ∧ 1 ≤ j ≤ heap (Game.board g) i
    ∧ (∀ k, 0 ≤ k < 3 →
         heap (Game.board g') k
         = if decide (k = i) then heap (Game.board g) k - j
           else heap (Game.board g) k)
    ∧ Game.players g' = Game.players g
    ∧ 0 ≤ Game.player_idx g' < 2.
Proof.
  intros (ms & m & Hms & Hm & (p & b' & Hp & Hb' & ->)%make_move_OK).
  destruct (legal_move_bounds g ms m Hms Hm) as (Hi & Hj).
  exists (Move.i m), (Move.j m). split; [exact Hi |]. split; [exact Hj |].
  simpl. split; [| split; [reflexivity |]].
  - destruct (apply_move_cases (Game.board g) m p Hi)
      as [(_ & Hraise)|(_ & b'' & Hb'' & Hheap)].
    + rewrite Hraise in Hb'. discriminate Hb'.
    + rewrite Hb'' in Hb'. injection Hb' as <-. exact Hheap.
  - destruct (Player.eqb p player1); lia.
Qed.

Lemma legal_step_sum (g g' : Game) :
  legal_step next_move g g' → heap_sum g' < heap_sum g.
Proof.
  intros (i & j & Hi & Hj & Hheap & _)%legal_step_inv.
  unfold heap_sum. rewrite !py_sum_board.
  rewrite (Hheap 0), (Hheap 1), (Hheap 2) by lia.
  repeat case_decide; lia.
Qed.

Lemma legal_step_nonneg (g g' : Game) :
  legal_step next_move g g' →
  nonneg (Game.board g) → nonneg (Game.board g').
Proof.
  intros (i & j & Hi & Hj & Hheap & _)%legal_step_inv (H0 & H1 & H2).
  unfold nonneg. rewrite (Hheap 0), (Hheap 1), (Hheap 2) by lia.
  repeat case_decide; subst; lia.
Qed.

Lemma legal_step_idx (g g' : Game) :
  legal_step next_move g g' → -2 ≤ Game.player_idx g' < 2.
Proof. intros (i & j & _ & _ & _ & _ & Hk)%legal_step_inv. lia. Qed.

(** No legal move leaves a board of three empty heaps. *)
Lemma legal_step_none (g : Game) :
  Board.state (Game.board g) = (0, 0, 0) → nf (legal_step next_move) g.
Proof.
  intros (H0 & H1 & H2)%state_zero_iff
         (g' & (i & j & Hi & Hj & _)%legal_step_inv).
  assert (i = 0 ∨ i = 1 ∨ i = 2) as Hcases by lia.
  destruct Hcases as [Hc|[Hc|Hc]]; subst i; lia.
Qed.

(** While stones remain, a legal move exists and can be made. *)
Lemma legal_step_some (g : Game) :
  nonneg (Game.board g) →
  -2 ≤ Game.player_idx g < 2 →
  Board.state (Game.board g) ≠ (0, 0, 0) →
  red (legal_step next_move) g.
Proof.
  intros Hnn (p & Hp)%Game_player_defined Hstate.
  destruct (nonneg_sum _ Hnn) as (_ & Hzero).
  assert (heap_sum g ≠ 0) as Hs by (unfold heap_sum; tauto).
  destruct (get_all_moves_spec (Game.board g)) as (ms & Hms & Hin).
  rewrite <- get_legal_moves_running in Hms by exact Hs.
  assert (∃ i, (i = 0 ∨ i = 1 ∨ i = 2) ∧ 1 ≤ heap (Game.board g) i)
    as (i & Hi & Hheap).
  { rewrite state_zero_iff in Hstate. destruct Hnn as (H0 & H1 & H2).
    destruct (decide (1 ≤ heap (Game.board g) 0)); [exists 0; auto |].
    destruct (decide (1 ≤ heap (Game.board g) 1)); [exists 1; auto |].
    exists 2. split; [auto | lia]. }
  assert (Move.mk i 1 ∈ ms) as Hm.
  { apply Hin. simpl. split; [exact Hi | lia]. }
  destruct (make_move_legal g ms (Move.mk i 1) p Hms Hm Hp)
    as (b' & Hmk & _).
  eexists. exists ms, (Move.mk i 1). eauto.
Qed.

(** Every sequence of legal moves is finite: the heap sum decreases and,
  on heaps that are not negative, stays at or above zero. *)
Lemma legal_step_sn (g : Game) :
  nonneg (Game.board g) → sn (legal_step next_move) g.
Proof.
  intros Hnn.
  assert (∀ n g, nonneg (Game.board g) → heap_sum g < Z.of_nat n →
                 sn (legal_step next_move) g) as Hind.
  { clear g Hnn. induction n as [|n IH]; intros g Hnn Hlt.
    - destruct (nonneg_sum _ Hnn) as (Hge & _). unfold heap_sum in Hlt. lia.
    - constructor. intros g' Hstep. simpl in Hstep. apply IH.
      + by eapply legal_step_nonneg.
      + apply legal_step_sum in Hstep. lia. }
  apply (Hind (Z.to_nat (heap_sum g + 1))); [exact Hnn |].
  destruct (nonneg_sum _ Hnn) as (Hge & _). unfold heap_sum. lia.
Qed.

Lemma legal_steps_invariant (g g' : Game) :
  rtc (legal_step next_move) g g' →
  nonneg (Game.board g) → -2 ≤ Game.player_idx g < 2 →
  nonneg (Game.board g') ∧ -2 ≤ Game.player_idx g' < 2
  ∧ heap_sum g' ≤ heap_sum g.
Proof.
  intros Hrtc Hnn Hidx. revert g' Hrtc. apply rtc_ind_r.
  - split; [exact Hnn |]. split; [exact Hidx | lia].
  - intros g1 g2 Hsteps Hstep (Hnn1 & Hidx1 & Hsum1).
    split; [by eapply legal_step_nonneg |].
    split; [by eapply legal_step_idx |].
    apply legal_step_sum in Hstep. lia.
Qed.

Lemma legal_steps_reach_zero (g : Game) :
  nonneg (Game.board g) → -2 ≤ Game.player_idx g < 2 →
  ∃ g', rtc (legal_step next_move) g g'
    ∧ Board.state (Game.board g') = (0, 0, 0).
Proof.
  intros Hnn. pose proof (legal_step_sn g Hnn) as Hsn.
  induction Hsn as [g _ IH]. intros Hidx.
  destruct (decide (Board.state (Game.board g) = (0, 0, 0))) as [Hz|Hnz].
  - exists g. split; [apply rtc_refl | exact Hz].
  - destruct (legal_step_some g Hnn Hidx Hnz) as (g1 & Hstep).
    destruct (IH g1 Hstep) as (g' & Hrtc & Hz).
    + by eapply legal_step_nonneg.
    + by eapply legal_step_idx.
    + exists g'. split; [by eapply rtc_l | exact Hz].
Qed.

(** C8, as stated, fails: from the board (1, -2, 0) the only legal move
  is [Move(0, 1)]; after it the board is (0, -2, 0), no legal move is
  left, the heaps are not all zero and the heap sum is below zero. *)
Lemma play_ends_at_zero_counterexample :
  ∃ g',
    get_legal_moves negative_heap = OK [Move.mk 0 1]
    ∧ make_move first_choice negative_heap (Some (Move.mk 0 1)) = OK g'
    ∧ get_legal_moves g' = OK []
    ∧ Board.state (Game.board g') = (0, -2, 0)
    ∧ heap_sum g' < 0.
Proof. eexists. repeat split; vm_compute; reflexivity. Qed.

(** C8, amended. From every game whose heaps are not negative and whose
  [player_idx] indexes the pair of players, repeated application of
  legal moves (each taken from [get_legal_moves] and made with
  [make_move]) always terminates in a board with all heaps zero: no
  sequence of legal moves is infinite, one of them reaches the board
  (0, 0, 0), a game reached this way has no further legal move exactly
  when its board is (0, 0, 0), and every legal move strictly decreases
  the heap sum, which stays at or above zero. *)
Theorem play_ends_at_zero (g : Game) :
  nonneg (Game.board g) →
  -2 ≤ Game.player_idx g < 2 →
  sn (legal_step next_move) g
  ∧ (∃ g', rtc (legal_step next_move) g g'
       ∧ Board.state (Game.board g') = (0, 0, 0))
  ∧ ∀ g', rtc (legal_step next_move) g g' →
      0 ≤ heap_sum g' ≤ heap_sum g
      ∧ (nf (legal_step next_move) g'
         ↔ Board.state (Game.board g') = (0, 0, 0))
      ∧ ∀ g'', legal_step next_move g' g'' → 0 ≤ heap_sum g'' < heap_sum g'.
Proof.
  intros Hnn Hidx.
  split; [by apply legal_step_sn |].
  split; [by apply legal_steps_reach_zero |].
  intros g' Hrtc.
  destruct (legal_steps_invariant g g' Hrtc Hnn Hidx)
    as (Hnn' & Hidx' & Hsum').
  destruct (nonneg_sum _ Hnn') as (Hge' & _).
  split; [unfold heap_sum in *; lia |]. split.
  - split.
    + intros Hnf.
      destruct (decide (Board.state (Game.board g') = (0, 0, 0)))
        as [Hz|Hnz]; [exact Hz |].
      exfalso. apply Hnf. by apply legal_step_some.
    + apply legal_step_none.
  - intros g'' Hstep. split.
    + pose proof (legal_step_nonneg g' g'' Hstep Hnn') as Hnn''.
      destruct (nonneg_sum _ Hnn'') as (Hge'' & _). exact Hge''.
    + by eapply legal_step_sum.
Qed.

End Play.

(** ** The amended statements at concrete games *)

Lemma winner_after_last_move_witness :
  ∃ mover w,
    Game.player one_stone_left = OK mover
    ∧ winner (Game.mk (player1, player2) (Board.mk (0, 0, 0)) 1) = OK (Some w)
    ∧ Player.eqb w mover = false.
Proof.
  destruct (winner_after_last_move first_choice one_stone_left
              (Game.mk (player1, player2) (Board.mk (0, 0, 0)) 1)
              (Move.mk 2 1))
    as (mover & w & Hmover & _ & Hw & _ & Hne).
  - vm_compute. reflexivity.
  - reflexivity.
  - exists mover, w. split; [exact Hmover |]. split; [exact Hw |].
    apply Hne; reflexivity.
Defined.

Lemma next_player_idx_after_move_witness :
  (get_next_player_idx one_stone_left = OK 1
   ∧ ∃ g', make_move first_choice one_stone_left (Some (Move.mk 2 1)) = OK g'
       ∧ Game.player_idx g' = 1 - Game.player_idx one_stone_left)
  ∧ (get_next_player_idx second_to_move = OK 0
     ∧ ∃ g', make_move first_choice second_to_move (Some (Move.mk 0 1)) = OK g'
         ∧ Game.player_idx g' = 0).
Proof.
  split.
  - destruct (next_player_idx_after_move first_choice one_stone_left player1
                [Move.mk 2 1] (Move.mk 2 1)) as (Hnext & Hmove).
    + vm_compute. reflexivity.
    + split; [exact Hnext |].
      destruct Hmove as (g' & Hg' & _ & _ & Hflip & _).
      * vm_compute. reflexivity.
      * apply list_elem_of_here.
      * exists g'. split; [exact Hg' |].
        apply Hflip; [reflexivity | reflexivity | simpl; lia].
  - destruct (next_player_idx_after_move first_choice second_to_move player2
                [Move.mk 0 1] (Move.mk 0 1)) as (Hnext & Hmove).
    + vm_compute. reflexivity.
    + split; [exact Hnext |].
      destruct Hmove as (g' & Hg' & _ & _ & _ & Hzero).
      * vm_compute. reflexivity.
      * apply list_elem_of_here.
      * exists g'. split; [exact Hg' |].
        apply Hzero; simpl; lia.
Defined.

Lemma play_ends_at_zero_witness :
  sn (legal_step first_choice) one_stone_left
  ∧ (∃ g', rtc (legal_step first_choice) one_stone_left g'
       ∧ Board.state (Game.board g') = (0, 0, 0))
  ∧ ∀ g', rtc (legal_step first_choice) one_stone_left g' →
      0 ≤ heap_sum g' ≤ heap_sum one_stone_left
      ∧ (nf (legal_step first_choice) g'
         ↔ Board.state (Game.board g') = (0, 0, 0))
      ∧ ∀ g'', legal_step first_choice g' g'' →
          0 ≤ heap_sum g'' < heap_sum g'.
Proof.
  apply (play_ends_at_zero first_choice one_stone_left).
  - unfold nonneg. vm_compute. repeat split; discriminate.
  - simpl. lia.
Defined.

(** * Further properties *)

(** ** Legal moves and [apply_move] *)

(** X1. For a game whose heap sum is not zero, a constructed move is in
  the list of [get_legal_moves] exactly when [apply_move] accepts it on
  the board of the game. *)
Theorem legal_iff_applicable (g : Game) (i j : Z) (m : Move) (p : Player) :
  heap_sum g ≠ 0 →
  Move.new i j = OK m →
  ∃ ms, get_legal_moves g = OK ms
    ∧ (m ∈ ms ↔ ∃ b', apply_move (Game.board g) m p = OK b').
Proof.
  intros Hs (-> & Hi & Hj)%Move_new_OK.
  destruct (get_all_moves_spec (Game.board g)) as (ms & Hms & Hin).
  rewrite <- get_legal_moves_running in Hms by exact Hs.
  exists ms. split; [exact Hms |]. rewrite Hin. simpl.
  assert (0 ≤ Move.i (Move.mk i j) < 3) as Hrange by (simpl; lia).
  destruct (apply_move_cases (Game.board g) (Move.mk i j) p Hrange)
    as [(Hlt & ->)|(Hle & b' & -> & _)]; simpl in *.
  - split; [lia | intros (b' & Hb'); discriminate Hb'].
  - split; [intros _; by exists b' | intros _; split; [exact Hi | lia]].
Qed.

Lemma legal_iff_applicable_witness :
  ∃ ms, get_legal_moves one_stone_left = OK ms
    ∧ (Move.mk 2 1 ∈ ms
       ↔ ∃ b', apply_move (Game.board one_stone_left) (Move.mk 2 1) player1
               = OK b').
Proof.
  apply (legal_iff_applicable one_stone_left 2 1 (Move.mk 2 1) player1).
  - vm_compute. discriminate.
  - vm_compute. reflexivity.
Defined.

(** X2. When [apply_move] returns a board for a constructed move
  [Move(i, j)], the heap sum of the new board is that of the old one
  minus [j], and no heap of the new board is negative if none of the old
  board was. *)
Theorem apply_move_keeps_nonneg
    (b b' : Board) (i j : Z) (m : Move) (p : Player) :
  Move.new i j = OK m →
  apply_move b m p = OK b' →
  py_sum (Board.iter b') = py_sum (Board.iter b) - j
  ∧ (nonneg b → nonneg b').
Proof.
  intros (-> & Hi & Hj)%Move_new_OK Hb'.
  assert (0 ≤ Move.i (Move.mk i j) < 3) as Hrange by (simpl; lia).
  destruct (apply_move_cases b (Move.mk i j) p Hrange)
    as [(_ & Hraise)|(Hle & b'' & Hb'' & Hheap)]; simpl in *.
  - rewrite Hraise in Hb'. discriminate Hb'.
  - rewrite Hb'' in Hb'. injection Hb' as ->.
    rewrite !py_sum_board. unfold nonneg.
    rewrite (Hheap 0), (Hheap 1), (Hheap 2) by lia.
    split; [repeat case_decide; lia |].
    intros (H0 & H1 & H2). repeat case_decide; subst; lia.
Qed.

Lemma apply_move_keeps_nonneg_witness :
  py_sum (Board.iter (Board.mk (3, 1, 5))) = py_sum (Board.iter Board.default) - 3
  ∧ (nonneg Board.default → nonneg (Board.mk (3, 1, 5))).
Proof.
  apply (apply_move_keeps_nonneg Board.default (Board.mk (3, 1, 5)) 1 3
           (Move.mk 1 3) player1).
  - vm_compute. reflexivity.
  - vm_compute. reflexivity.
Defined.

(** ** The order of moves *)

Lemma Move_ltb_spec (a b : Move) :
  Move.ltb a b = true ↔
  Move.i a < Move.i b ∨ (Move.i a = Move.i b ∧ Move.j a < Move.j b).
Proof.
  unfold Move.ltb.
  rewrite orb_true_iff, andb_true_iff, !bool_decide_eq_true. tauto.
Qed.

Lemma Move_eqb_spec (a b : Move) : Move.eqb a b = true ↔ a = b.
Proof.
  unfold Move.eqb. rewrite andb_true_iff, !bool_decide_eq_true.
  destruct a as [ai aj], b as [bi bj]. simpl. split.
  - intros (-> & ->). reflexivity.
  - intros [= -> ->]. auto.
Qed.

(** X3. [Move.__lt__] is a strict total order whose equality is
  [Move.__eq__]: no move is below itself, the order is transitive, and
  of two moves exactly one is below the other unless they are equal. *)
Theorem Move_lt_strict_total (a b c : Move) :
  Move.ltb a a = false
  ∧ (Move.ltb a b = true → Move.ltb b c = true → Move.ltb a c = true)
  ∧ (Move.ltb a b = true → Move.ltb b a = false ∧ Move.eqb a b = false)
  ∧ (Move.ltb a b = false → Move.ltb b a = false → Move.eqb a b = true).
Proof.
  rewrite <- !not_true_iff_false, !Move_ltb_spec, Move_eqb_spec.
  destruct a as [ai aj], b as [bi bj], c as [ci cj]. simpl.
  repeat split; try lia.
  - intros [= -> ->]. lia.
  - intros H1 H2. f_equal; lia.
Qed.

Lemma Move_lt_strict_total_witness :
  Move.ltb (Move.mk 0 3) (Move.mk 2 1) = true
  ∧ Move.ltb (Move.mk 2 1) (Move.mk 0 3) = false
  ∧ Move.eqb (Move.mk 0 3) (Move.mk 2 1) = false.
Proof.
  destruct (Move_lt_strict_total (Move.mk 0 3) (Move.mk 1 1) (Move.mk 2 1))
    as (_ & Htrans & _).
  assert (Move.ltb (Move.mk 0 3) (Move.mk 2 1) = true) as Hlt.
  { apply Htrans; vm_compute; reflexivity. }
  destruct (Move_lt_strict_total (Move.mk 0 3) (Move.mk 2 1) (Move.mk 2 1))
    as (_ & _ & Hasym & _).
  split; [exact Hlt | exact (Hasym Hlt)].
Defined.

Lemma seqZ_sorted (m n : Z) : StronglySorted Z.lt (seqZ m n).
Proof.
  unfold seqZ.
  apply (StronglySorted_fmap (λ k : nat, Z.of_nat k + m) Nat.lt Z.lt).
  - intros x y Hxy. lia.
  - generalize (Z.to_nat n) as k. generalize 0%nat as a.
    intros a k. revert a. induction k as [|k IH]; intros a; simpl.
    + constructor.
    + constructor; [apply IH |].
      apply Forall_forall. intros x Hx%elem_of_seq. lia.
Qed.

Lemma row_sorted (i n : Z) :
  StronglySorted (λ a b, Move.ltb a b = true) (Move.mk i <$> seqZ 1 n).
Proof.
  apply (StronglySorted_fmap (Move.mk i) Z.lt); [| apply seqZ_sorted].
  intros x y Hxy. apply Move_ltb_spec. simpl. right. split; [reflexivity | lia].
Qed.

Lemma get_legal_moves_cases (g : Game) (ms : list Move) :
  get_legal_moves g = OK ms →
  ms = [] ∨ (heap_sum g ≠ 0 ∧ _get_all_moves (Game.board g) = OK ms).
Proof.
  intros Hms. destruct (decide (heap_sum g = 0)) as [Hs|Hs].
  - left. rewrite get_legal_moves_over in Hms by exact Hs.
    destruct (Game.player g); simpl in Hms; [| discriminate].
    by injection Hms as <-.
  - right. split; [exact Hs |].
    by rewrite get_legal_moves_running in Hms.
Qed.

(** X4. The list that [get_legal_moves] returns is strictly increasing
  for [Move.__lt__]: every move in it is below every later one (heap by
  heap, and by count within a heap). *)
Theorem get_legal_moves_sorted (g : Game) (ms : list Move) :
  get_legal_moves g = OK ms →
  StronglySorted (λ a b, Move.ltb a b = true) ms.
Proof.
  intros [->|(_ & Hall)]%get_legal_moves_cases; [constructor |].
  rewrite get_all_moves_eq in Hall. injection Hall as <-.
  apply StronglySorted_app_2; [| apply row_sorted |].
  - intros a b [Ha _]%elem_of_row Hb. apply Move_ltb_spec. left.
    apply elem_of_app in Hb as [[Hb _]%elem_of_row|[Hb _]%elem_of_row]; lia.
  - apply StronglySorted_app_2; try apply row_sorted.
    intros a b [Ha _]%elem_of_row [Hb _]%elem_of_row.
    apply Move_ltb_spec. left. lia.
Qed.

Lemma get_legal_moves_sorted_witness :
  StronglySorted (λ a b, Move.ltb a b = true)
    [Move.mk 0 1; Move.mk 0 2; Move.mk 2 1].
Proof.
  apply (get_legal_moves_sorted
           (Game.mk (player1, player2) (Board.mk (2, 0, 1)) 0)).
  vm_compute. reflexivity.
Defined.

(** X5. For a game whose heap sum is not zero, [get_legal_moves] returns
  as many moves as there are stones on the heaps, a negative entry
  counting for none. *)
Theorem get_legal_moves_count (g : Game) :
  heap_sum g ≠ 0 →
  ∃ ms, get_legal_moves g = OK ms
    ∧ Z.of_nat (length ms)
      = Z.max 0 (heap (Game.board g) 0) + Z.max 0 (heap (Game.board g) 1)
        + Z.max 0 (heap (Game.board g) 2).
Proof.
  intros Hs. rewrite get_legal_moves_running by exact Hs.
  rewrite get_all_moves_eq. eexists. split; [reflexivity |].
  rewrite !length_app, !length_fmap, !length_seqZ. lia.
Qed.

Lemma get_legal_moves_count_witness :
  ∃ ms, get_legal_moves (Game.mk (player1, player2) Board.default 0) = OK ms
    ∧ Z.of_nat (length ms)
      = Z.max 0 (heap Board.default 0) + Z.max 0 (heap Board.default 1)
        + Z.max 0 (heap Board.default 2).
Proof.
  apply (get_legal_moves_count (Game.mk (player1, player2) Board.default 0)).
  vm_compute. discriminate.
Defined.

(** ** Comparing moves, boards and players with other values *)



Lemma Player_eq_int (p : Player) (k : Z) :
  Player_eq p (PyInt k) = true ↔ Player.i p = k.
Proof. simpl. apply bool_decide_eq_true. Qed.

Lemma winner_to_score_eq (p : Player) :
  winner_to_score p
  = if decide (Player.i p = 1) then OK 1%Q
    else if decide (Player.i p = 2) then OK 0%Q
    else if decide (Player.i p = -1) then OK (Qmake 1 2)
    else Raise ValueError.
Proof.
  unfold winner_to_score. simpl.
  repeat case_bool_decide; repeat case_decide; try reflexivity; lia.
Qed.

(** X8. [winner_to_score] raises ValueError exactly for a player whose
  identifier is not -1, 1 or 2. A player that was constructed never
  makes it raise: the score is 1 for [Player(1)], 0 for [Player(2)] and
  1/2 for the tie marker [Player(-1)]. *)
Theorem winner_to_score_cases (p : Player) :
  (winner_to_score p = Raise ValueError
   ↔ ¬ (Player.i p = -1 ∨ Player.i p = 1 ∨ Player.i p = 2))
  ∧ ∀ i a, Player.new i a = OK p →
      winner_to_score p
      = OK (if decide (i = 1) then 1%Q
            else if decide (i = 2) then 0%Q else Qmake 1 2).
Proof.
  rewrite winner_to_score_eq. split.
  - repeat case_decide; split; intros Hr;
      first [reflexivity | discriminate Hr | lia | exfalso; lia].
  - intros i a Hnew.
    destruct (Player_new_cases i a) as [(Hi & Hok)|(_ & Hbad)].
    + rewrite Hok in Hnew. injection Hnew as <-. simpl.
      repeat case_decide; try reflexivity; lia.
    + rewrite Hbad in Hnew. discriminate Hnew.
Qed.

Lemma winner_to_score_cases_witness :
  winner_to_score player2 = OK 0%Q.
Proof.
  destruct (winner_to_score_cases player2) as (_ & Hscore).
  apply (Hscore 2 RandomAgent). vm_compute. reflexivity.
Defined.

(** ** The random agent *)

Lemma random_choice_elem_of {A : Type} (r : nat) (seq : list A) :
  seq ≠ [] → ∃ x, random_choice r seq = OK x ∧ x ∈ seq.
Proof.
  destruct seq as [|x seq']; [done |]. intros _.
  exists (nth (r mod length (x :: seq')) (x :: seq') x).
  split; [reflexivity |].
  apply list_elem_of_In, (nth_In (x :: seq')).
  apply Nat.mod_upper_bound. discriminate.
Qed.

Lemma make_move_None (nm : Agent → Game → exc Move) (g : Game) (m : Move) :
  get_move nm g = OK m → make_move nm g None = make_move nm g (Some m).
Proof. intros Hm. unfold make_move. by rewrite Hm. Qed.

(** X9. When the player to move has a random agent, [make_move] without
  a move raises IndexError if the game has no legal move left (a
  finished game among them), and otherwise makes one of the legal moves:
  the result is the game that [make_move] returns for that move, and its
  heap sum is smaller. *)
Theorem random_agent_makes_legal_move
    (cli : Game → exc Move) (r : nat) (g : Game) (p : Player)
    (ms : list Move) :
  Game.player g = OK p →
  Player.agent p = RandomAgent →
  get_legal_moves g = OK ms →
  (ms = [] → make_move (agents_next_move cli r) g None = Raise IndexError)
  ∧ (ms ≠ [] →
     ∃ m g', m ∈ ms
       ∧ make_move (agents_next_move cli r) g None = OK g'
       ∧ make_move (agents_next_move cli r) g (Some m) = OK g'
       ∧ heap_sum g' < heap_sum g).
Proof.
  intros Hp Hagent Hms.
  assert (get_move (agents_next_move cli r) g = random_choice r ms) as Hget.
  { unfold get_move. rewrite Hp. simpl. rewrite Hagent. simpl.
    unfold RandomAgent_next_move. by rewrite Hms. }
  split.
  - intros ->. unfold make_move. by rewrite Hget.
  - intros Hne.
    destruct (random_choice_elem_of r ms Hne) as (m & Hm & Hin).
    rewrite Hm in Hget.
    destruct (make_move_legal (agents_next_move cli r) g ms m p Hms Hin Hp)
      as (b' & Hmk & _).
    eexists m, _. split; [exact Hin |].
    split; [by rewrite (make_move_None _ g m Hget) |].
    split; [exact Hmk |].
    apply (legal_step_sum (agents_next_move cli r)).
    exists ms, m. auto.
Qed.

Lemma random_agent_makes_legal_move_witness :
  ∃ m g', m ∈ [Move.mk 2 1]
    ∧ make_move (agents_next_move (first_choice RandomAgent) 7)
        one_stone_left None = OK g'
    ∧ make_move (agents_next_move (first_choice RandomAgent) 7)
        one_stone_left (Some m) = OK g'
    ∧ heap_sum g' < heap_sum one_stone_left.
Proof.
  destruct (random_agent_makes_legal_move (first_choice RandomAgent) 7
              one_stone_left player1 [Move.mk 2 1]) as (_ & Hmove).
  - vm_compute. reflexivity.
  - reflexivity.
  - vm_compute. reflexivity.
  - apply Hmove. discriminate.
Defined.

(** ** Turns from the initial game *)

Lemma Player_new_2 : Player.new 2 RandomAgent = OK player2.
Proof.
  destruct (Player_new_cases 2 RandomAgent) as [(_ & H)|(Hbad & _)].
  - exact H.
  - exfalso. apply Hbad. right. right. reflexivity.
Qed.

Lemma init_game_eq (drawn : Board) (board : MaybeBoard) (k : Z) :
  init_game drawn board k
  = OK (Game.mk (player1, player2)
          (match board with Some b => b | None => drawn end) k).
Proof. unfold init_game. by rewrite Player_new_1, Player_new_2. Qed.

(** With [Player(1)] and [Player(2)] and an index of 0 or 1, a legal move
  hands the turn to the other player. *)
Lemma legal_step_alternates
    (nm : Agent → Game → exc Move) (g g' : Game) :
  Game.players g = (player1, player2) →
  0 ≤ Game.player_idx g < 2 →
  legal_step nm g g' →
  Game.players g' = (player1, player2)
  ∧ Game.player_idx g' = 1 - Game.player_idx g.
Proof.
  intros Hps Hidx (ms & m & _ & _ & (p & b' & Hp & _ & ->)%make_move_OK).
  simpl. split; [exact Hps |].
  player_lookup g; [| | lia]; injection Hp as <-; rewrite Hps;
    unfold Player.eqb; simpl; lia.
Qed.

(** X10. In a game started by [init_game] with index 0, after any [n]
  legal moves the players are still [Player(1)] and [Player(2)], the
  index is [n mod 2], and if the three heaps are then zero the winner is
  [Player(1)] when [n] is even and [Player(2)] when [n] is odd. *)
Theorem turns_alternate_from_init
    (nm : Agent → Game → exc Move) (drawn : Board) (board : MaybeBoard)
    (n : nat) (g0 g : Game) :
  init_game drawn board 0 = OK g0 →
  nsteps (legal_step nm) n g0 g →
  Game.players g = (player1, player2)
  ∧ Game.player_idx g = Z.of_nat n `mod` 2
  ∧ (Board.state (Game.board g) = (0, 0, 0) →
     winner g = OK (Some (if Nat.even n then player1 else player2))).
Proof.
  rewrite init_game_eq. intros [= <-] Hsteps.
  assert (Game.players g = (player1, player2)
          ∧ Game.player_idx g = Z.of_nat n `mod` 2) as (Hps & Hidx).
  { revert g Hsteps. induction n as [|n IH]; intros g Hsteps.
    - inversion Hsteps; subst. simpl. auto.
    - apply nsteps_inv_r in Hsteps as (y & Hsteps & Hstep).
      destruct (IH y Hsteps) as (Hps & Hidx).
      assert (0 ≤ Game.player_idx y < 2) as Hrange
        by (rewrite Hidx; apply Z.mod_pos_bound; lia).
      destruct (legal_step_alternates nm y g Hps Hrange Hstep)
        as (Hps' & Hidx').
      split; [exact Hps' |]. rewrite Hidx', Hidx.
      replace (Z.of_nat (S n)) with (Z.of_nat n + 1) by lia.
      rewrite (Z.add_mod (Z.of_nat n) 1 2) by lia.
      pose proof (Z.mod_pos_bound (Z.of_nat n) 2) as Hb.
      assert (Z.of_nat n `mod` 2 = 0 ∨ Z.of_nat n `mod` 2 = 1)
        as [->| ->] by lia; reflexivity. }
  split; [exact Hps |]. split; [exact Hidx |].
  intros Hzero. unfold winner. rewrite determine_winner_over.
  - unfold Game.player. rewrite Hps, Hidx.
    destruct (Nat.even n) eqn:Heven.
    + apply Nat.even_spec in Heven as (k & ->).
      replace (Z.of_nat (2 * k)) with (Z.of_nat k * 2) by lia.
      rewrite Z.mod_mul by lia. reflexivity.
    + apply not_true_iff_false in Heven.
      rewrite Nat.even_spec in Heven.
      assert (Nat.Odd n) as (k & ->).
      { destruct (Nat.Even_or_Odd n) as [He|Ho]; [contradiction | exact Ho]. }
      replace (Z.of_nat (2 * k + 1)) with (1 + Z.of_nat k * 2) by lia.
      rewrite Z.mod_add by lia. reflexivity.
  - unfold heap_sum. destruct (Game.board g) as [st]. simpl in *. by subst.
Qed.

Lemma turns_alternate_from_init_witness :
  winner (Game.mk (player1, player2) (Board.mk (0, 0, 0)) 1)
  = OK (Some player2).
Proof.
  destruct (turns_alternate_from_init first_choice Board.default
              (Some (Board.mk (0, 0, 1))) 1 one_stone_left
              (Game.mk (player1, player2) (Board.mk (0, 0, 0)) 1))
    as (_ & _ & Hw).
  - vm_compute. reflexivity.
  - eapply nsteps_l; [| apply nsteps_O].
    exists [Move.mk 2 1], (Move.mk 2 1).
    split; [vm_compute; reflexivity |].
    split; [apply list_elem_of_here | vm_compute; reflexivity].
  - apply Hw. reflexivity.
Defined.

(** ** The driver *)

Lemma Game_player_one_of (g : Game) (p : Player) :
  Game.player g = OK p → p = (Game.players g).1 ∨ p = (Game.players g).2.
Proof.
  intros Hp. player_lookup g; [left | right | discriminate]; congruence.
Qed.

Lemma play_loop_finished
    (answers : nat → Agent → Game → exc Move) (fuel n : nat)
    (g : Game) (p : Player) :
  heap_sum g = 0 → Game.player g = OK p →
  play_loop answers fuel n g = Returns (Some p).
Proof.
  intros Hs Hp. destruct fuel; simpl; unfold winner;
    rewrite determine_winner_over by exact Hs; by rewrite Hp.
Qed.

(** A match whose agents answer with legal moves ends before the fuel
  does when the fuel covers the stones on the board. *)
Lemma play_loop_ends
    (answers : nat → Agent → Game → exc Move) (ps : Player * Player) :
  (∀ n g p ms, Game.players g = ps → Game.player g = OK p →
     get_legal_moves g = OK ms → ms ≠ [] →
     ∃ m, answers n (Player.agent p) g = OK m ∧ m ∈ ms) →
  ∀ fuel n g,
    Game.players g = ps →
    nonneg (Game.board g) →
    -2 ≤ Game.player_idx g < 2 →
    heap_sum g ≤ Z.of_nat fuel →
    ∃ w, play_loop answers fuel n g = Returns (Some w)
      ∧ (w = ps.1 ∨ w = ps.2).
Proof.
  intros Hlegal fuel.
  induction fuel as [|fuel IH]; intros n g Hps Hnn Hidx Hfuel;
    destruct (nonneg_sum _ Hnn) as (Hge & Hzero);
    pose proof Hidx as (p & Hp)%Game_player_defined;
    (destruct (decide (heap_sum g = 0)) as [Hs|Hs];
      [ exists p; split;
        [ by apply play_loop_finished
        | rewrite <- Hps; by apply Game_player_one_of ] |]).
  - unfold heap_sum in *. lia.
  - assert (Board.state (Game.board g) ≠ (0, 0, 0)) as Hstate
      by (unfold heap_sum in Hs; tauto).
    destruct (legal_step_some (answers n) g Hnn Hidx Hstate)
      as (g1 & ms & m1 & Hms & Hin1 & _).
    assert (ms ≠ []) as Hne by (intros ->; by apply elem_of_nil in Hin1).
    destruct (Hlegal n g p ms Hps Hp Hms Hne) as (m & Hanswer & Hin).
    assert (get_move (answers n) g = OK m) as Hget
      by (unfold get_move; by rewrite Hp).
    destruct (make_move_legal (answers n) g ms m p Hms Hin Hp)
      as (b' & Hmk & _).
    assert (legal_step (answers n) g
              (Game.mk (Game.players g) b'
                 (if Player.eqb p player1 then 1 else 0))) as Hstep
      by (exists ms, m; auto).
    simpl. unfold winner. rewrite determine_winner_running by exact Hs.
    simpl. rewrite (make_move_None _ g m Hget), Hmk.
    apply IH.
    + exact Hps.
    + by eapply legal_step_nonneg.
    + by eapply legal_step_idx.
    + apply legal_step_sum in Hstep. unfold heap_sum in *. lia.
Qed.

Lemma random_agents_answer
    (cli : Game → exc Move) (draws : nat → nat) (p1 p2 : Player) :
  Player.agent p1 = RandomAgent →
  Player.agent p2 = RandomAgent →
  ∀ n g p ms, Game.players g = (p1, p2) → Game.player g = OK p →
    get_legal_moves g = OK ms → ms ≠ [] →
    ∃ m, agents_next_move cli (draws n) (Player.agent p) g = OK m ∧ m ∈ ms.
Proof.
  intros H1 H2 n g p ms Hps Hp Hms Hne.
  destruct (random_choice_elem_of (draws n) ms Hne) as (m & Hm & Hin).
  exists m. split; [| exact Hin].
  assert (Player.agent p = RandomAgent) as ->.
  { destruct (Game_player_one_of g p Hp) as [->| ->]; by rewrite Hps. }
  simpl. unfold RandomAgent_next_move. by rewrite Hms.
Qed.

(** X11. A match between two random agents, played by [_play_game] on
  the default board (3, 4, 5), ends with a winner after at most twelve
  moves, whatever the agents draw, and the winner is one of the two
  players. *)
Theorem play_game_random_agents_end
    (cli : Game → exc Move) (draws : nat → nat) (fuel : nat)
    (p1 p2 : Player) :
  Player.agent p1 = RandomAgent →
  Player.agent p2 = RandomAgent →
  (12 ≤ fuel)%nat →
  ∃ w, _play_game (λ n, agents_next_move cli (draws n)) fuel p1 p2
       = Returns (Some w)
    ∧ (w = p1 ∨ w = p2).
Proof.
  intros H1 H2 Hfuel. unfold _play_game.
  apply (play_loop_ends _ (p1, p2)
           (random_agents_answer cli draws p1 p2 H1 H2)).
  - reflexivity.
  - unfold nonneg, heap. simpl. lia.
  - simpl. lia.
  - unfold heap_sum. simpl. unfold py_sum. simpl. lia.
Qed.

Lemma play_game_random_agents_end_witness :
  ∃ w, _play_game (λ n, agents_next_move (first_choice RandomAgent) (2 * n))
         12 player1 player2
       = Returns (Some w)
    ∧ (w = player1 ∨ w = player2).
Proof.
  apply (play_game_random_agents_end (first_choice RandomAgent)
           (λ n, (2 * n)%nat) 12 player1 player2).
  - reflexivity.
  - reflexivity.
  - lia.
Defined.

Lemma count_winner_1 (w : Player) (t : tally) :
  Player.i w = 1 →
  count_winner (Some w) t
  = OK (mk_tally (n_games t + 1) (n_wins_1 t + 1) (n_wins_2 t) (n_ties t)).
Proof.
  intros Hw. unfold count_winner, winner_is. simpl.
  by rewrite bool_decide_eq_true_2.
Qed.

Lemma count_winner_2 (w : Player) (t : tally) :
  Player.i w = 2 →
  count_winner (Some w) t
  = OK (mk_tally (n_games t + 1) (n_wins_1 t) (n_wins_2 t + 1) (n_ties t)).
Proof.
  intros Hw. unfold count_winner, winner_is. simpl.
  rewrite bool_decide_eq_false_2 by lia.
  by rewrite bool_decide_eq_true_2.
Qed.

(** One round of the loop of [play_game] while [cont] is still ["t"]. *)
Lemma play_game_loop_round
    (answers : nat → nat → Agent → Game → exc Move) (inputs : nat → string)
    (move_fuel : nat) (p1 p2 : Player) (n_runs : option Z)
    (fuel k : nat) (t : tally) :
  play_game_loop answers inputs move_fuel p1 p2 n_runs (S fuel) k "t" t
  = match _play_game (answers k) move_fuel p1 p2 with
    | Raises e => Raises e
    | Unfinished => Unfinished
    | Returns winner =>
        match count_winner winner t with
        | Raise e => Raises (Py e)
        | OK t' =>
            match n_runs with
            | None => Raises TypeError
            | Some n =>
                if bool_decide (n ≤ n_games t') then Returns t'
                else play_game_loop answers inputs move_fuel p1 p2 n_runs
                       fuel (S k) "t" t'
            end
        end
    end.
Proof.
  destruct n_runs; reflexivity.
Qed.

Lemma play_game_loop_counts
    (answers : nat → nat → Agent → Game → exc Move) (inputs : nat → string)
    (move_fuel : nat) (p1 p2 : Player) (n : Z) :
  (∀ k, ∃ w, _play_game (answers k) move_fuel p1 p2 = Returns (Some w)
          ∧ (w = p1 ∨ w = p2)) →
  Player.i p1 = 1 → Player.i p2 = 2 →
  ∀ fuel k t,
    Z.max (n_games t + 1) n - n_games t ≤ Z.of_nat fuel →
    ∃ t', play_game_loop answers inputs move_fuel p1 p2 (Some n)
            fuel k "t" t = Returns t'
      ∧ n_games t' = Z.max (n_games t + 1) n
      ∧ n_wins_1 t' + n_wins_2 t'
        = n_wins_1 t + n_wins_2 t + (n_games t' - n_games t)
      ∧ n_wins_1 t ≤ n_wins_1 t'
      ∧ n_wins_2 t ≤ n_wins_2 t'
      ∧ n_ties t' = n_ties t.
Proof.
  intros Hmatch Hp1 Hp2 fuel.
  induction fuel as [|fuel IH]; intros k t Hfuel; [lia |].
  rewrite play_game_loop_round.
  destruct (Hmatch k) as (w & -> & Hw).
  assert (∃ t1, count_winner (Some w) t = OK t1
            ∧ n_games t1 = n_games t + 1
            ∧ n_wins_1 t1 + n_wins_2 t1 = n_wins_1 t + n_wins_2 t + 1
            ∧ n_wins_1 t ≤ n_wins_1 t1
            ∧ n_wins_2 t ≤ n_wins_2 t1
            ∧ n_ties t1 = n_ties t) as (t1 & -> & Hg & Hsum & H1 & H2 & Ht).
  { destruct Hw as [->| ->]; eexists;
      (split; [first [by apply count_winner_1 | by apply count_winner_2] |]);
      simpl; repeat split; lia. }
  case_bool_decide as Hdone.
  - exists t1. split; [reflexivity |]. repeat split; lia.
  - destruct (IH (S k) t1) as (t' & -> & Hg' & Hsum' & H1' & H2' & Ht');
      [lia |].
    exists t'. split; [reflexivity |]. repeat split; lia.
Qed.

(** X12. [play_game] with a number of runs [n] and two random agents as
  [Player(1)] and [Player(2)] plays [max(1, n)] matches (one match even
  for [n <= 0]) and then stops; every match is counted as a win of
  player 1 or of player 2, and none as a tie. *)
Theorem play_game_counts_runs
    (cli : Game → exc Move) (draws : nat → nat → nat)
    (inputs : nat → string) (move_fuel fuel : nat) (p1 p2 : Player) (n : Z) :
  Player.agent p1 = RandomAgent →
  Player.agent p2 = RandomAgent →
  Player.i p1 = 1 →
  Player.i p2 = 2 →
  (12 ≤ move_fuel)%nat →
  Z.max 1 n ≤ Z.of_nat fuel →
  ∃ t, play_game (λ k n, agents_next_move cli (draws k n)) inputs
         move_fuel fuel p1 p2 (Some n) = Returns t
    ∧ n_games t = Z.max 1 n
    ∧ n_wins_1 t + n_wins_2 t = n_games t
    ∧ 0 ≤ n_wins_1 t
    ∧ 0 ≤ n_wins_2 t
    ∧ n_ties t = 0.
Proof.
  intros Ha1 Ha2 Hp1 Hp2 Hmf Hfuel. unfold play_game.
  destruct (play_game_loop_counts
              (λ k n, agents_next_move cli (draws k n)) inputs move_fuel
              p1 p2 n) with (fuel := fuel) (k := 0%nat)
              (t := mk_tally 0 0 0 0)
    as (t & Ht & Hg & Hsum & H1 & H2 & Hties); simpl in *.
  - intros k. unfold _play_game.
    apply (play_loop_ends _ (p1, p2)
             (random_agents_answer cli (draws k) p1 p2 Ha1 Ha2)).
    + reflexivity.
    + unfold nonneg, heap. simpl. lia.
    + simpl. lia.
    + unfold heap_sum. simpl. unfold py_sum. simpl. lia.
  - exact Hp1.
  - exact Hp2.
  - lia.
  - exists t. split; [exact Ht |]. repeat split; lia.
Qed.

Lemma play_game_counts_runs_witness :
  ∃ t, play_game
         (λ k n, agents_next_move (first_choice RandomAgent) (7 * n + k))
         (λ _, "") 12 3 player1 player2 (Some 3) = Returns t
    ∧ n_games t = Z.max 1 3
    ∧ n_wins_1 t + n_wins_2 t = n_games t
    ∧ 0 ≤ n_wins_1 t
    ∧ 0 ≤ n_wins_2 t
    ∧ n_ties t = 0.
Proof.
  apply (play_game_counts_runs (first_choice RandomAgent)
           (λ k n, (7 * n + k)%nat) (λ _, "") 12 3 player1 player2 3).
  - reflexivity.
  - reflexivity.
  - reflexivity.
  - reflexivity.
  - lia.
  - simpl. lia.
Defined.

(** X13. [play_game] without [n_runs] never ends normally, whatever the
  agents answer and whatever is typed: after the first match has been
  counted, [n_games >= n_runs] compares an integer with None and raises
  TypeError. *)
Theorem play_game_without_n_runs
    (answers : nat → nat → Agent → Game → exc Move) (inputs : nat → string)
    (move_fuel fuel : nat) (p1 p2 : Player) :
  (∀ t, play_game answers inputs move_fuel fuel p1 p2 None ≠ Returns t)
  ∧ ∀ w t', _play_game (answers 0%nat) move_fuel p1 p2 = Returns w →
      count_winner w (mk_tally 0 0 0 0) = OK t' →
      (0 < fuel)%nat →
      play_game answers inputs move_fuel fuel p1 p2 None = Raises TypeError.
Proof.
  unfold play_game. destruct fuel as [|fuel].
  - split; [intros t Ht; discriminate Ht | intros w t' _ _ Hfuel; lia].
  - rewrite play_game_loop_round. split.
    + intros t.
      destruct (_play_game (answers 0%nat) move_fuel p1 p2) as [w|e|];
        try discriminate.
      destruct (count_winner w (mk_tally 0 0 0 0)); discriminate.
    + intros w t' -> -> _. reflexivity.
Qed.

Lemma play_game_without_n_runs_witness :
  play_game (λ k n, agents_next_move (first_choice RandomAgent) (7 * n + k))
    (λ _, "q") 12 1 player1 player2 None
  = Raises TypeError.
Proof.
  destruct (play_game_without_n_runs
              (λ k n, agents_next_move (first_choice RandomAgent) (7 * n + k))
              (λ _, "q") 12 1 player1 player2) as (_ & Herr).
  apply (Herr (Some player1)
           (mk_tally 1 1 0 0)).
  - vm_compute. reflexivity.
  - vm_compute. reflexivity.
  - lia.
Defined.
